(** * localscope: the [ScopeContextManager] of [src/__init__.py]

    A shallow embedding of the scope guard and of the Python [with]
    statement that drives it, followed by the properties of its three
    modes (full reset, keyword-only, preserve list). *)

From stdpp Require Import gmap strings list fin_maps.

Local Open Scope string_scope.

(** ** Python values *)

(** The values the guard can observe: what may be bound to a local name,
    passed as a positional argument, or listed in the preserve list.
    [PObj] stands for any other object (hashable by identity). *)
#[warnings="-register-all"] Inductive pyval : Type :=
| PNone
| PBool (b : bool)
| PInt (n : Z)
| PStr (s : string)
| PList (xs : list pyval)
| PTuple (xs : list pyval)
| PObj (id : nat).

(** Equality of Python values is decidable. *)
#[export] Instance pyval_eq_dec : EqDecision pyval.
Proof.
  unfold EqDecision, Decision.
  fix IH 1. intros v w.
  decide equality;
    try (apply (List.list_eq_dec IH));
    try apply Bool.bool_dec; try apply Z.eq_dec; try apply String.string_dec;
    apply Nat.eq_dec.
Defined.

(** [hash(v)] succeeds: lists are unhashable, a tuple is hashable when
    its items are. *)
Fixpoint hashable (v : pyval) : bool :=
  match v with
  | PList _ => false
  | PTuple xs => forallb hashable xs
  | _ => true
  end.

(** [isinstance(v, list)] *)
Definition isinstance_list (v : pyval) : bool :=
  match v with
  | PList _ => true
  | _ => false
  end.

(** [bool(v)], as the [with] statement applies it to the value returned
    by [__exit__]. *)
Definition truthy (v : pyval) : bool :=
  match v with
  | PNone => false
  | PBool b => b
  | PInt n => negb (n =? 0)%Z
  | PStr s => negb (String.length s =? 0)%nat
  | PList xs | PTuple xs => negb (length xs =? 0)%nat
  | PObj _ => true
  end.

(** ** Exceptions *)

Inductive exn : Type :=
| ValueError (msg : string)
| KeyError (key : pyval)
| TypeError (msg : string)
| AttributeError (attr : string)
| NameError (name : string)
| UserError (id : nat).

(** The three arguments the [with] statement hands to [__exit__] for a
    pending exception: its class, the instance and the traceback, all
    opaque objects here. *)
Definition exc_info (e : exn) : pyval * pyval * pyval :=
  match e with
  | ValueError _ => (PObj 0, PObj 10, PObj 20)
  | KeyError _ => (PObj 1, PObj 11, PObj 20)
  | TypeError _ => (PObj 2, PObj 12, PObj 20)
  | AttributeError _ => (PObj 3, PObj 13, PObj 20)
  | NameError _ => (PObj 4, PObj 14, PObj 20)
  | UserError id => (PObj (100 + id), PObj (200 + id), PObj 20)
  end.

(** ** Dictionaries *)

(** A mapping of local names to values: [f_locals], and the copy kept in
    [old_locals].  Iteration order of these two is never used. *)
Abbreviation dict := (gmap string pyval).

(** [**kwargs]: keyword names are pairwise distinct; the order of the
    pairs is the iteration order of the dictionary. *)
Abbreviation kwargs := (list (string * pyval)).

(** ** The monad of the calling frame

    Every method reads and mutates one shared object, the dictionary
    [inspect.stack()[1][0].f_locals] of the caller.  A computation takes
    the current content of that dictionary and gives back either a value
    or a raised exception, together with the content it leaves behind:
    mutations made before a [raise] stay. *)
Definition M (A : Type) : Type := dict → (exn + A) * dict.

#[export] Instance M_ret : MRet M := λ A (a : A) l, (inr a, l).

#[export] Instance M_bind : MBind M := λ A B (f : A → M B) (c : M A) l,
  match c l with
  | (inr a, l') => f a l'
  | (inl e, l') => (inl e, l')
  end.

Definition raise {A : Type} (e : exn) : M A := λ l, (inl e, l).

(** *** Operations on [l = inspect.stack()[1][0].f_locals] *)

(** [l.copy()]: a new dictionary with the present content; nothing else
    ever holds a reference to it, so its content is all that matters. *)
Definition l_copy : M dict := λ l, (inr l, l).

(** [l.clear()] *)
Definition l_clear : M unit := λ _, (inr tt, ∅).

(** [l.update(d)] for a dictionary [d] of names *)
Definition l_update (d : dict) : M unit := λ l, (inr tt, d ∪ l).

(** [l] overridden by the pairs of [kw], one after the other *)
Definition updated (l : dict) (kw : kwargs) : dict :=
  foldl (λ m kv, <[kv.1 := kv.2]> m) l kw.

(** [l.update(kw)] for a keyword dictionary *)
Definition l_update_kwargs (kw : kwargs) : M unit := λ l,
  (inr tt, updated l kw).

(** [name in l]: the key is hashed first; only a string can be equal to
    a key of [l]. *)
Definition l_contains (name : pyval) : M bool := λ l,
  match name with
  | PStr s => (inr (bool_decide (is_Some (l !! s))), l)
  | _ => if hashable name then (inr false, l)
         else (inl (TypeError "unhashable type"), l)
  end.

(** [(name, l[name])]: the stored key together with its value *)
Definition l_item (name : pyval) : M (string * pyval) := λ l,
  match name with
  | PStr s => match l !! s with
              | Some v => (inr (s, v), l)
              | None => (inl (KeyError name), l)
              end
  | _ => if hashable name then (inl (KeyError name), l)
         else (inl (TypeError "unhashable type"), l)
  end.

(** [l[name] = v] *)
Definition l_setitem (name : string) (v : pyval) : M unit := λ l,
  (inr tt, <[name := v]> l).

(** [del l[name]] *)
Definition l_delitem (name : string) : M unit := λ l,
  match l !! name with
  | Some _ => (inr tt, delete name l)
  | None => (inl (KeyError (PStr name)), l)
  end.

(** ** The class *)

(** The attributes of an instance.  [vars_to_preserve] holds a list or
    [None]; [old_locals] does not exist before [__enter__] has run. *)
Record ScopeContextManager : Type := {
  initial_values : kwargs;
  vars_to_preserve : pyval;
  old_locals : option dict;
}.

Definition set_old_locals (self : ScopeContextManager) (d : dict)
  : ScopeContextManager :=
  {| initial_values := initial_values self;
     vars_to_preserve := vars_to_preserve self;
     old_locals := Some d |}.

(** [self.old_locals] *)
Definition get_old_locals (self : ScopeContextManager) : M dict :=
  match old_locals self with
  | Some d => mret d
  | None => raise (AttributeError "old_locals")
  end.

Definition init_error : exn :=
  ValueError "Scope context manager takes one (optional) positional argument, a list of variables to preserve".

Definition __init__ (args : list pyval) (kw : kwargs) : M ScopeContextManager :=
  if (length args =? 0)%nat then
    if (length kw =? 0)%nat then
      mret {| initial_values := kw; vars_to_preserve := PList []; old_locals := None |}
    else
      mret {| initial_values := kw; vars_to_preserve := PNone; old_locals := None |}
  else
    match args with
    | arg0 :: _ =>
        if (length args =? 1)%nat && isinstance_list arg0 then
          mret {| initial_values := kw; vars_to_preserve := arg0; old_locals := None |}
        else raise init_error
    | [] => raise init_error
    end.

Definition scope := __init__.

Definition __enter__ (self : ScopeContextManager) : M ScopeContextManager :=
  old ← l_copy;
  let self := set_old_locals self old in
  _ ← l_update_kwargs (initial_values self);
  mret self.

(** [dict((name, l[name]) for name in names if name in l)], the pairs
    entering the dictionary [acc] as they are produced. *)
Fixpoint preserved_dict (names : list pyval) (acc : dict) : M dict :=
  match names with
  | [] => mret acc
  | name :: names =>
      b ← l_contains name;
      if b : bool then
        kv ← l_item name;
        preserved_dict names (<[kv.1 := kv.2]> acc)
      else preserved_dict names acc
  end.

(** The loop [for name in self.initial_values: ...] of the second branch
    of [__exit__]. *)
Fixpoint restore_keywords (self : ScopeContextManager) (names : list string)
  : M unit :=
  match names with
  | [] => mret tt
  | name :: names =>
      old ← get_old_locals self;
      _ ← match old !! name with
          | Some v => l_setitem name v
          | None => l_delitem name
          end;
      restore_keywords self names
  end.

Definition __exit__ (self : ScopeContextManager) (exc_type exc_msg exc_tb : pyval)
  : M pyval :=
  match vars_to_preserve self with
  | PList names =>
      preserved ← preserved_dict names ∅;
      _ ← l_clear;
      old ← get_old_locals self;
      _ ← l_update old;
      _ ← l_update preserved;
      mret PNone
  | _ =>
      _ ← restore_keywords self (initial_values self).*1;
      mret PNone
  end.

(** ** The [with] statement

    [with mgr: body], for a manager already constructed: [__enter__]
    runs, then the block; [__exit__] runs however the block is left.
    After a normal end it gets three [None]s and its result is dropped;
    after a [raise] it gets the exception, and the exception goes on
    unless it returns a true value.  An exception of [__exit__] itself
    replaces whatever was pending. *)
Definition with_stmt (mgr : ScopeContextManager) (body : M unit) : M unit := λ l,
  match __enter__ mgr l with
  | (inl e, l1) => (inl e, l1)
  | (inr mgr, l1) =>
      match body l1 with
      | (inr _, l2) =>
          match __exit__ mgr PNone PNone PNone l2 with
          | (inr _, l3) => (inr tt, l3)
          | (inl e, l3) => (inl e, l3)
          end
      | (inl e, l2) =>
          let '(ty, val, tb) := exc_info e in
          match __exit__ mgr ty val tb l2 with
          | (inr r, l3) => if truthy r then (inr tt, l3) else (inl e, l3)
          | (inl e', l3) => (inl e', l3)
          end
      end
  end.

(** [with scope(...): body], the manager built from the positional
    arguments [args] and the keyword arguments [kw] *)
Definition with_scope (args : list pyval) (kw : kwargs) (body : M unit) : M unit :=
  mgr ← scope args kw; with_stmt mgr body.

(** The manager built from [args] and [kw], after its [__enter__]. *)
Definition entered (args : list pyval) (kw : kwargs) : M ScopeContextManager :=
  scope args kw ≫= __enter__.

(** [__exit__] of that manager, entered on the locals [l0], at the end
    of a block that leaves the locals [l1]. *)
Definition exit_after (args : list pyval) (kw : kwargs) (l0 l1 : dict)
  : (exn + pyval) * dict :=
  match entered args kw l0 with
  | (inr mgr, _) => __exit__ mgr PNone PNone PNone l1
  | (inl e, _) => (inl e, l1)
  end.

(** One scoped block told from the configuration of its manager and the
    locals [l] at its own entry: the keywords go in, the block runs, and
    the exit rule is applied with [l] as the pre-scope mapping. *)
Definition scoped_block (kw : kwargs) (preserve : pyval) (body : M unit)
  : M unit := λ l,
  let mgr := {| initial_values := kw; vars_to_preserve := preserve;
                old_locals := Some l |} in
  match body (updated l kw) with
  | (inr _, l2) =>
      match __exit__ mgr PNone PNone PNone l2 with
      | (inr _, l3) => (inr tt, l3)
      | (inl e, l3) => (inl e, l3)
      end
  | (inl e, l2) =>
      match __exit__ mgr PNone PNone PNone l2 with
      | (inr _, l3) => (inl e, l3)
      | (inl e', l3) => (inl e', l3)
      end
  end.

(** [isinstance(v, str)] *)
Definition is_str (v : pyval) : bool :=
  match v with
  | PStr _ => true
  | _ => false
  end.

(** The block [pass] *)
Definition pass : M unit := mret tt.



(** ** The examples of the class docstring *)

(** [c = a + b] *)
Definition assign_sum (c a b : string) : M unit := λ l,
  match l !! a, l !! b with
  | Some (PInt x), Some (PInt y) => (inr tt, <[c := PInt (x + y)]> l)
  | Some _, Some _ => (inl (TypeError "unsupported operand type(s) for +"), l)
  | None, _ => (inl (NameError a), l)
  | _, None => (inl (NameError b), l)
  end.

Definition locals_7_9 : dict := <["a" := PInt 7]> (<["b" := PInt 9]> ∅).

Definition block_assign_all : M unit :=
  _ ← l_setitem "a" (PInt 3); _ ← l_setitem "b" (PInt 5); assign_sum "c" "a" "b".

Arguments __exit__ : simpl never.
Arguments with_stmt : simpl never.

(** ** Closed forms of the loops *)

(** What the dictionary comprehension of [__exit__] collects. *)
Definition preserved_of (l : dict) (names : list pyval) (acc : dict) : dict :=
  foldl (λ acc name,
           match name with
           | PStr s => match l !! s with
                       | Some v => <[s := v]> acc
                       | None => acc
                       end
           | _ => acc
           end) acc names.

(** What the keyword loop of [__exit__] leaves in [l] when it completes. *)
Definition restored (old l : dict) (names : list string) : dict :=
  foldl (λ m name,
           match old !! name with
           | Some v => <[name := v]> m
           | None => delete name m
           end) l names.

Ltac monad_simpl :=
  unfold mbind, M_bind, mret, M_ret, raise; simpl.

Section Loops.

Implicit Types (l old acc : dict) (kw : kwargs) (k : string).

Lemma updated_notin kw l k :
  k ∉ kw.*1 → updated l kw !! k = l !! k.
Proof.
  unfold updated. revert l.
  induction kw as [|[k' v'] kw IH]; intros l Hk; simpl in *; [done|].
  apply not_elem_of_cons in Hk as [Hne Hk].
  rewrite IH by done. by rewrite lookup_insert_ne.
Qed.

Lemma updated_in kw l k v :
  NoDup kw.*1 → (k, v) ∈ kw → updated l kw !! k = Some v.
Proof.
  unfold updated. revert l.
  induction kw as [|[k' v'] kw IH]; intros l Hnd Hin; simpl in *.
  - by apply elem_of_nil in Hin.
  - apply NoDup_cons in Hnd as [Hk' Hnd].
    apply elem_of_cons in Hin as [Heq|Hin].
    + injection Heq as -> ->.
      fold (updated (<[k' := v']> l) kw).
      rewrite updated_notin by done. apply lookup_insert_eq.
    + by apply IH.
Qed.

Lemma preserved_of_lookup names l acc k :
  preserved_of l names acc !! k =
    if bool_decide (PStr k ∈ names ∧ is_Some (l !! k)) then l !! k
    else acc !! k.
Proof.
  unfold preserved_of. revert acc.
  induction names as [|name names IH]; intros acc; cbn [foldl].
  - rewrite bool_decide_eq_false_2; [done|].
    intros [H _]. by apply elem_of_nil in H.
  - rewrite IH. clear IH.
    destruct (decide (PStr k ∈ names ∧ is_Some (l !! k))) as [[Hin Hs]|Hnin].
    + rewrite !bool_decide_eq_true_2; [done| |done].
      split; [apply elem_of_cons; by right|done].
    + rewrite (bool_decide_eq_false_2 _ Hnin).
      destruct (decide (name = PStr k)) as [->|Hne].
      * destruct (l !! k) as [v|] eqn:Hl.
        -- rewrite bool_decide_eq_true_2; [by rewrite lookup_insert_eq|].
           split; [apply elem_of_cons; by left|by eexists].
        -- rewrite bool_decide_eq_false_2; [done|].
           intros [_ [? ?]]; done.
      * rewrite bool_decide_eq_false_2.
        2:{ intros [Hin Hs]. apply elem_of_cons in Hin as [Heq|Hin]; [congruence|].
            apply Hnin; by split. }
        destruct name as [| | |s| | |]; try done.
        destruct (l !! s); [|done].
        rewrite lookup_insert_ne; [done|congruence].
Qed.

Lemma preserved_dict_eq names acc l :
  preserved_dict names acc l =
    if forallb hashable names then (inr (preserved_of l names acc), l)
    else (inl (TypeError "unhashable type"), l).
Proof.
  revert acc. induction names as [|name names IH]; intros acc; [done|].
  destruct name as [| | |s|xs|xs|]; simpl; monad_simpl;
    try (rewrite IH; done); [| |].
  - destruct (l !! s) as [v|] eqn:Hl.
    + rewrite bool_decide_eq_true_2 by (by eexists). rewrite Hl. simpl.
      by rewrite IH.
    + rewrite bool_decide_eq_false_2 by (intros [? ?]; done). by rewrite IH.
  - done.
  - destruct (forallb hashable xs); simpl; [by rewrite IH|done].
Qed.

Lemma restored_notin old names l k :
  k ∉ names → restored old l names !! k = l !! k.
Proof.
  unfold restored. revert l.
  induction names as [|name names IH]; intros l Hk; simpl; [done|].
  apply not_elem_of_cons in Hk as [Hne Hk].
  rewrite IH by done.
  destruct (old !! name);
    [by rewrite lookup_insert_ne|by rewrite lookup_delete_ne].
Qed.

Lemma restored_in old names l k :
  NoDup names → k ∈ names → restored old l names !! k = old !! k.
Proof.
  unfold restored. revert l.
  induction names as [|name names IH]; intros l Hnd Hk; simpl.
  - by apply elem_of_nil in Hk.
  - apply NoDup_cons in Hnd as [Hname Hnd].
    apply elem_of_cons in Hk as [->|Hk]; [|by apply IH].
    match goal with
    | |- foldl ?f ?m names !! _ = _ =>
        change (foldl f m names) with (restored old m names)
    end.
    rewrite restored_notin by done.
    destruct (old !! name) eqn:Ho;
      [by rewrite lookup_insert_eq|by rewrite lookup_delete_eq].
Qed.

(** The keyword loop completes exactly when every keyword that has no
    pre-scope binding is still bound when it is reached. *)
Lemma restore_keywords_ok self old names l :
  old_locals self = Some old →
  NoDup names →
  (∀ k, k ∈ names → old !! k = None → is_Some (l !! k)) →
  restore_keywords self names l = (inr tt, restored old l names).
Proof.
  intros Hold. revert l.
  induction names as [|name names IH]; intros l Hnd Hpre; [done|].
  apply NoDup_cons in Hnd as [Hname Hnd].
  simpl. unfold get_old_locals. rewrite Hold. monad_simpl.
  destruct (old !! name) as [v|] eqn:Ho.
  - unfold l_setitem. apply IH; [done|].
    intros k Hk HNone. rewrite lookup_insert_ne by set_solver.
    apply Hpre; [by apply elem_of_cons; right|done].
  - unfold l_delitem.
    destruct (Hpre name) as [w Hw]; [by apply elem_of_cons; left|done|].
    rewrite Hw. apply IH; [done|].
    intros k Hk HNone. rewrite lookup_delete_ne by set_solver.
    apply Hpre; [by apply elem_of_cons; right|done].
Qed.

(** The keyword loop fails as soon as one keyword is bound neither in
    [old_locals] nor in the live mapping. *)
Lemma restore_keywords_fails self old names l :
  old_locals self = Some old →
  (∃ k, k ∈ names ∧ old !! k = None ∧ l !! k = None) →
  ∃ k l', restore_keywords self names l = (inl (KeyError (PStr k)), l').
Proof.
  intros Hold. revert l.
  induction names as [|name names IH]; intros l (k & Hk & Ho & Hl).
  - by apply elem_of_nil in Hk.
  - simpl. unfold get_old_locals. rewrite Hold. monad_simpl.
    destruct (decide (k = name)) as [->|Hne].
    + rewrite Ho. unfold l_delitem. rewrite Hl. eauto.
    + apply elem_of_cons in Hk as [?|Hk]; [done|].
      destruct (old !! name) as [v|].
      * unfold l_setitem. apply IH. exists k.
        by rewrite lookup_insert_ne.
      * unfold l_delitem. destruct (l !! name); [|eauto].
        apply IH. exists k. by rewrite lookup_delete_ne.
Qed.

End Loops.

(** ** Closed forms of the methods *)

Section Methods.

Implicit Types (self mgr : ScopeContextManager) (l old : dict) (kw : kwargs).
Implicit Types (exc_type exc_msg exc_tb : pyval).

Lemma init_no_args_no_kwargs l :
  __init__ [] [] l =
    (inr {| initial_values := []; vars_to_preserve := PList [];
            old_locals := None |}, l).
Proof. reflexivity. Qed.

Lemma init_keywords_only kw l :
  kw ≠ [] →
  __init__ [] kw l =
    (inr {| initial_values := kw; vars_to_preserve := PNone;
            old_locals := None |}, l).
Proof. by destruct kw. Qed.

Lemma init_list names kw l :
  __init__ [PList names] kw l =
    (inr {| initial_values := kw; vars_to_preserve := PList names;
            old_locals := None |}, l).
Proof. reflexivity. Qed.

Lemma enter_eq self l :
  __enter__ self l =
    (inr (set_old_locals self l), updated l (initial_values self)).
Proof. reflexivity. Qed.

Lemma hashable_names (names : list string) :
  forallb hashable (PStr <$> names) = true.
Proof. by induction names. Qed.

(** First branch of [__exit__]. *)
Lemma exit_list_eq self names old exc_type exc_msg exc_tb l :
  vars_to_preserve self = PList names →
  old_locals self = Some old →
  __exit__ self exc_type exc_msg exc_tb l =
    if forallb hashable names
    then (inr PNone, preserved_of l names ∅ ∪ old)
    else (inl (TypeError "unhashable type"), l).
Proof.
  intros Hv Ho. unfold __exit__, get_old_locals. rewrite Hv, Ho.
  monad_simpl. rewrite preserved_dict_eq.
  destruct (forallb hashable names); [|done].
  unfold l_update. by rewrite (right_id_L ∅ (∪)).
Qed.

(** Second branch of [__exit__]. *)
Lemma exit_keywords_eq self exc_type exc_msg exc_tb l :
  isinstance_list (vars_to_preserve self) = false →
  __exit__ self exc_type exc_msg exc_tb l =
    match restore_keywords self (initial_values self).*1 l with
    | (inr _, l') => (inr PNone, l')
    | (inl e, l') => (inl e, l')
    end.
Proof.
  intros Hv. unfold __exit__.
  destruct (vars_to_preserve self); try done; monad_simpl;
    by destruct (restore_keywords _ _ _) as [[?|[]] ?].
Qed.

Lemma exit_keywords_fails self old exc_type exc_msg exc_tb l :
  isinstance_list (vars_to_preserve self) = false →
  old_locals self = Some old →
  (∃ k, k ∈ (initial_values self).*1 ∧ old !! k = None ∧ l !! k = None) →
  ∃ k l', __exit__ self exc_type exc_msg exc_tb l = (inl (KeyError (PStr k)), l').
Proof.
  intros Hv Hold Hk. rewrite exit_keywords_eq by done.
  destruct (restore_keywords_fails self old _ l Hold Hk) as (k & l' & ->).
  eauto.
Qed.

(** Neither branch looks at the exception it is told about. *)
Lemma exit_ignores_exception self exc_type exc_msg exc_tb l :
  __exit__ self exc_type exc_msg exc_tb l = __exit__ self PNone PNone PNone l.
Proof. reflexivity. Qed.

(** Whatever [__exit__] returns is [None]. *)
Lemma exit_returns_None self exc_type exc_msg exc_tb l r l' :
  __exit__ self exc_type exc_msg exc_tb l = (inr r, l') → r = PNone.
Proof.
  unfold __exit__. monad_simpl.
  destruct (vars_to_preserve self);
    try (destruct (restore_keywords _ _ _) as [[?|[]] ?]; congruence).
  destruct (preserved_dict _ _ _) as [[?|?] ?]; [congruence|].
  unfold get_old_locals. destruct (old_locals self); simpl; congruence.
Qed.

(** Construction followed by entry. *)
Lemma scope_enter_list names kw l :
  (scope [PList names] kw ≫= __enter__) l =
    (inr {| initial_values := kw; vars_to_preserve := PList names;
            old_locals := Some l |}, updated l kw).
Proof. reflexivity. Qed.

Lemma scope_enter_keywords kw l :
  kw ≠ [] →
  (scope [] kw ≫= __enter__) l =
    (inr {| initial_values := kw; vars_to_preserve := PNone;
            old_locals := Some l |}, updated l kw).
Proof. by destruct kw. Qed.

(** The [with] statement, with [__enter__] carried out: the block runs
    on the locals overridden by the keywords, and [__exit__], holding the
    locals of the entry in [old_locals], runs on what the block leaves. *)
Lemma with_stmt_eq mgr body l0 :
  with_stmt mgr body l0 =
    match body (updated l0 (initial_values mgr)) with
    | (inr _, l2) =>
        match __exit__ (set_old_locals mgr l0) PNone PNone PNone l2 with
        | (inr _, l3) => (inr tt, l3)
        | (inl e, l3) => (inl e, l3)
        end
    | (inl e, l2) =>
        match __exit__ (set_old_locals mgr l0) PNone PNone PNone l2 with
        | (inr _, l3) => (inl e, l3)
        | (inl e', l3) => (inl e', l3)
        end
    end.
Proof.
  unfold with_stmt. rewrite enter_eq.
  destruct (body _) as [[e|[]] l2]; [|done].
  destruct (exc_info e) as [[ty val] tb].
  rewrite (exit_ignores_exception _ ty val tb).
  destruct (__exit__ _ _ _ _ _) as [[e'|r] l3] eqn:He; [done|].
  apply exit_returns_None in He as ->. done.
Qed.

(** With an empty preserve list the statement leaves the locals it
    found, keywords or not. *)
Lemma empty_preserve_list_restores mgr body l0 :
  vars_to_preserve mgr = PList [] →
  (with_stmt mgr body l0).2 = l0.
Proof.
  intros Hv. rewrite with_stmt_eq.
  destruct (body _) as [[e|[]] l1];
    erewrite exit_list_eq by done; simpl;
    by rewrite (left_id_L ∅ (∪)).
Qed.

End Methods.

(** The doctests of the class. *)

Example doctest_no_arguments :
  with_scope [] [] block_assign_all locals_7_9 = (inr tt, locals_7_9).
Proof. vm_compute. reflexivity. Qed.

Example doctest_preserve_c :
  with_scope [PList [PStr "c"]] [] block_assign_all locals_7_9
  = (inr tt, <["c" := PInt 8]> locals_7_9).
Proof. vm_compute. reflexivity. Qed.

Example doctest_preserve_c_with_keywords :
  with_scope [PList [PStr "c"]] [("a", PInt 3); ("b", PInt 5)]
    (assign_sum "c" "a" "b") locals_7_9
  = (inr tt, <["c" := PInt 8]> locals_7_9).
Proof. vm_compute. reflexivity. Qed.

Example doctest_preserve_c_b :
  with_scope [PList [PStr "c"; PStr "b"]] [("a", PInt 3); ("b", PInt 5)]
    (assign_sum "c" "a" "b") locals_7_9
  = (inr tt, <["c" := PInt 8]> (<["b" := PInt 5]> locals_7_9)).
Proof. vm_compute. reflexivity. Qed.

Example doctest_keyword_a :
  with_scope [] [("a", PInt 3)]
    (_ ← l_setitem "b" (PInt 5); assign_sum "c" "a" "b") locals_7_9
  = (inr tt, <["c" := PInt 8]> (<["b" := PInt 5]> locals_7_9)).
Proof. vm_compute. reflexivity. Qed.

Example doctest_keywords_a_b :
  with_scope [] [("a", PInt 3); ("b", PInt 5)]
    (assign_sum "c" "a" "b") locals_7_9
  = (inr tt, <["c" := PInt 8]> locals_7_9).
Proof. vm_compute. reflexivity. Qed.

Example two_positional_arguments l :
  scope [PList [PInt 1; PInt 2]; PList [PStr "extra"]] [] l = (inl init_error, l).
Proof. reflexivity. Qed.

Example string_argument l :
  scope [PStr "notalist"] [] l = (inl init_error, l).
Proof. reflexivity. Qed.

(** ** Construction *)

(** C5: construction succeeds for no positional argument (an empty
    preserve list when there are no keywords either, [None] otherwise)
    and for exactly one positional argument that is a list (which becomes
    the preserve list, with or without keywords); every other shape
    raises the [ValueError] of the constructor.  In all cases the locals
    of the caller are left as they were. *)
Theorem init_accepts_exactly_the_allowed_shapes
    (args : list pyval) (kw : kwargs) (l : dict) :
  (__init__ args kw l).2 = l ∧
  (__init__ args kw l).1 =
    match args with
    | [] =>
        inr {| initial_values := kw;
               vars_to_preserve := match kw with [] => PList [] | _ => PNone end;
               old_locals := None |}
    | [PList names] =>
        inr {| initial_values := kw; vars_to_preserve := PList names;
               old_locals := None |}
    | _ => inl init_error
    end
  ∧ ((__init__ args kw l).1 = inl init_error
     ↔ ¬ (args = [] ∨ ∃ names, args = [PList names])).
Proof.
  destruct args as [|arg0 [|arg1 args]].
  - repeat split; try by destruct kw.
    intros []. by left.
  - repeat split; try by destruct arg0.
    + intros H [?|[names [= ->]]]; done.
    + intros H. destruct arg0; try done. destruct H. right. by eexists.
  - repeat split; try by destruct arg0.
    intros _ [?|[names ?]]; done.
Qed.

(** ** Entry *)

(** C6: [__enter__] stores in [old_locals] the locals as they are before
    any keyword is injected, so also the pre-scope binding (or absence)
    of the names that are keywords; the live mapping it leaves is the
    pre-scope mapping overridden by the keywords. *)
Theorem enter_copies_before_it_injects
    (self : ScopeContextManager) (l0 : dict) :
  NoDup (initial_values self).*1 →
  ∃ self' le,
    __enter__ self l0 = (inr self', le)
    ∧ old_locals self' = Some l0
    ∧ initial_values self' = initial_values self
    ∧ vars_to_preserve self' = vars_to_preserve self
    ∧ (∀ k v, (k, v) ∈ initial_values self → le !! k = Some v)
    ∧ (∀ k, k ∉ (initial_values self).*1 → le !! k = l0 !! k).
Proof.
  intros Hnd. eexists _, _. rewrite enter_eq.
  repeat split; simpl.
  - intros k v Hin. by apply updated_in.
  - intros k Hk. by apply updated_notin.
Qed.

Lemma enter_copies_before_it_injects_witness :
  ∃ self' le,
    __enter__ {| initial_values := [("a", PInt 3); ("b", PInt 5)];
                 vars_to_preserve := PNone; old_locals := None |}
              locals_7_9 = (inr self', le)
    ∧ old_locals self' = Some locals_7_9
    ∧ le !! "a" = Some (PInt 3).
Proof.
  destruct (enter_copies_before_it_injects
              {| initial_values := [("a", PInt 3); ("b", PInt 5)];
                 vars_to_preserve := PNone; old_locals := None |}
              locals_7_9) as (self' & le & He & Ho & _ & _ & Hkw & _).
  - simpl. apply (bool_decide_unpack _). vm_compute. reflexivity.
  - exists self', le. repeat split; [exact He|exact Ho|].
    apply Hkw. apply elem_of_cons. by left.
Defined.

(** ** Full reset *)

(** C2: with no argument at all, [__exit__] turns whatever mapping [l1]
    the block leaves into the pre-scope mapping, and the locals after the
    [with] statement are the locals before it, whatever the block did and
    however it ended: same names, same values. *)
Theorem full_reset_round_trip (body : M unit) (l0 l1 : dict) :
  let after := (with_scope [] [] body l0).2 in
  exit_after [] [] l0 l1 = (inr PNone, l0)
  ∧ after = l0 ∧ dom after = dom l0 ∧ ∀ k, after !! k = l0 !! k.
Proof.
  assert ((with_scope [] [] body l0).2 = l0) as ->.
  { unfold with_scope, scope. monad_simpl.
    by apply empty_preserve_list_restores. }
  repeat split.
  change (exit_after [] [] l0 l1)
    with (__exit__ {| initial_values := []; vars_to_preserve := PList [];
                      old_locals := Some l0 |} PNone PNone PNone l1).
  erewrite exit_list_eq by done. simpl. by rewrite (left_id_L ∅ (∪)).
Qed.

(** ** Preserve list *)

(** C1 (amended): with a list of names as the positional argument,
    [__exit__] completes for every pre-scope mapping [l0] and every
    mapping [l1] at the end of the block; a listed name bound in [l1]
    keeps that binding, and every other name, listed or not, is back in
    its pre-scope state: bound to its pre-scope value, or unbound. *)
Theorem preserve_list_exit
    (names : list string) (kw : kwargs) (l0 l1 : dict)
    (exc_type exc_msg exc_tb : pyval) :
  ∃ mgr le l2,
    (scope [PList (PStr <$> names)] kw ≫= __enter__) l0 = (inr mgr, le)
    ∧ __exit__ mgr exc_type exc_msg exc_tb l1 = (inr PNone, l2)
    ∧ (∀ n, n ∈ names → is_Some (l1 !! n) → l2 !! n = l1 !! n)
    ∧ (∀ n, n ∉ names → l2 !! n = l0 !! n)
    ∧ (∀ n, n ∈ names → l1 !! n = None → l2 !! n = l0 !! n).
Proof.
  eexists _, _, _.
  split; [apply scope_enter_list|].
  erewrite exit_list_eq by done. rewrite hashable_names.
  split; [reflexivity|].
  assert (∀ n, (preserved_of l1 (PStr <$> names) ∅ ∪ l0) !! n =
               if bool_decide (n ∈ names ∧ is_Some (l1 !! n))
               then l1 !! n else l0 !! n) as Hlook.
  { intros n. rewrite lookup_union, preserved_of_lookup.
    destruct (decide (n ∈ names ∧ is_Some (l1 !! n))) as [[Hin [v Hv]]|Hn].
    - rewrite !bool_decide_eq_true_2, Hv; [by destruct (l0 !! n)|by eauto|].
      split; [|by eauto]. apply list_elem_of_fmap. by exists n.
    - rewrite !bool_decide_eq_false_2; [by rewrite lookup_empty, (left_id None _)|done|].
      intros [Hin Hs]. apply Hn. split; [|done].
      apply list_elem_of_fmap in Hin as (n' & [= ->] & Hin). done. }
  repeat split; intros n; rewrite Hlook.
  - intros Hin Hs. by rewrite bool_decide_eq_true_2.
  - intros Hn. rewrite bool_decide_eq_false_2; [done|]. by intros [? _].
  - intros _ Hl1. rewrite bool_decide_eq_false_2; [done|].
    rewrite Hl1. intros [_ [? ?]]; done.
Qed.

(** C1 as stated fails: ["b"] is listed and unbound when the block ends
    (the block deleted it), yet after [__exit__] it is bound again, to
    its pre-scope value. *)
Lemma preserve_list_absent_name_counterexample :
  "b" ∈ ["b"]
  ∧ l_delitem "b" {["b" := PInt 9]} = (inr tt, ∅)
  ∧ (∅ : dict) !! "b" = None
  ∧ exit_after [PList [PStr "b"]] [] {["b" := PInt 9]} ∅
    = (inr PNone, {["b" := PInt 9]})
  ∧ ¬ ((exit_after [PList [PStr "b"]] [] {["b" := PInt 9]} ∅).2 !! "b" = None).
Proof.
  split; [by apply list_elem_of_singleton|].
  split; [vm_compute; reflexivity|].
  split; [reflexivity|].
  split; [vm_compute; reflexivity|].
  vm_compute. discriminate.
Qed.

(** ** Keywords only *)

(** Keyword-only mode where [__exit__] completes: [__enter__] binds every
    keyword to its value, and when each keyword that had no pre-scope
    binding is still bound as the block ends, [__exit__] returns, every
    keyword is in its pre-scope state (its pre-scope value, or unbound)
    and every other name is as the block left it. *)
Theorem keyword_only_enter_exit
    (kw : kwargs) (l0 l1 : dict) (exc_type exc_msg exc_tb : pyval) :
  kw ≠ [] →
  NoDup kw.*1 →
  (∀ k, k ∈ kw.*1 → l0 !! k = None → is_Some (l1 !! k)) →
  ∃ mgr le l2,
    (scope [] kw ≫= __enter__) l0 = (inr mgr, le)
    ∧ (∀ k v, (k, v) ∈ kw → le !! k = Some v)
    ∧ __exit__ mgr exc_type exc_msg exc_tb l1 = (inr PNone, l2)
    ∧ (∀ k, k ∈ kw.*1 → l2 !! k = l0 !! k)
    ∧ (∀ k, k ∉ kw.*1 → l2 !! k = l1 !! k).
Proof.
  intros Hkw Hnd Hpre. eexists _, _, _.
  split; [by apply scope_enter_keywords|].
  split; [intros k v Hin; by apply updated_in|].
  rewrite exit_keywords_eq by done. simpl.
  erewrite restore_keywords_ok by done.
  split; [reflexivity|].
  split; intros k Hk; [by apply restored_in|by apply restored_notin].
Qed.

Lemma keyword_only_enter_exit_witness :
  ∃ mgr le l2,
    (scope [] [("a", PInt 3)] ≫= __enter__) locals_7_9 = (inr mgr, le)
    ∧ le !! "a" = Some (PInt 3)
    ∧ __exit__ mgr PNone PNone PNone
        (<["c" := PInt 8]> (<["b" := PInt 5]> le)) = (inr PNone, l2)
    ∧ l2 !! "a" = Some (PInt 7)
    ∧ l2 !! "b" = Some (PInt 5).
Proof.
  destruct (keyword_only_enter_exit [("a", PInt 3)] locals_7_9
              (<["c" := PInt 8]> (<["b" := PInt 5]> (<["a" := PInt 3]> locals_7_9)))
              PNone PNone PNone)
    as (mgr & le & l2 & He & Hle & Hx & Hk & Ho).
  - discriminate.
  - apply (bool_decide_unpack _). vm_compute. reflexivity.
  - intros k Hk. apply list_elem_of_singleton in Hk as ->.
    vm_compute. discriminate.
  - exists mgr, le, l2.
    assert (le = <["a" := PInt 3]> locals_7_9) as Hle'.
    { vm_compute in He. by injection He as _ <-. }
    split; [exact He|]. split; [apply Hle; by apply list_elem_of_singleton|].
    split; [rewrite Hle'; exact Hx|].
    split; [rewrite Hk by (by apply list_elem_of_singleton); reflexivity|].
    rewrite Ho; [reflexivity|].
    intros Hin. by apply list_elem_of_singleton in Hin.
Defined.

(** C3 fails on the code where [__exit__] raises: pre-scope [{b: 9}],
    [with scope(a=3, b=5): del a].  Entry binds both keywords; at exit
    the loop reaches ["a"], which has no pre-scope binding and is unbound,
    and [del l[name]] raises [KeyError].  The keyword ["b"] that follows
    is never reached: after exit it holds the keyword value [5], not its
    pre-scope value [9]. *)
Theorem keyword_exit_failure_leaves_keyword_unrestored :
  entered [] [("a", PInt 3); ("b", PInt 5)] {["b" := PInt 9]}
  = (inr {| initial_values := [("a", PInt 3); ("b", PInt 5)];
            vars_to_preserve := PNone;
            old_locals := Some {["b" := PInt 9]} |},
     <["b" := PInt 5]> (<["a" := PInt 3]> ∅))
  ∧ l_delitem "a" (<["b" := PInt 5]> (<["a" := PInt 3]> ∅))
    = (inr tt, {["b" := PInt 5]})
  ∧ exit_after [] [("a", PInt 3); ("b", PInt 5)]
      {["b" := PInt 9]} {["b" := PInt 5]}
    = (inl (KeyError (PStr "a")), {["b" := PInt 5]})
  ∧ ({["b" := PInt 9]} : dict) !! "b" = Some (PInt 9)
  ∧ (exit_after [] [("a", PInt 3); ("b", PInt 5)]
       {["b" := PInt 9]} {["b" := PInt 5]}).2 !! "b" = Some (PInt 5).
Proof.
  repeat split; vm_compute; reflexivity.
Qed.

(** C4 fails in the keyword branch: [with scope(a=3): del a], entered
    with no local bound, ends in the [KeyError] of [del l[name]] raised
    by [__exit__]. *)
Theorem exit_raises_on_deleted_keyword :
  with_scope [] [("a", PInt 3)] (l_delitem "a") ∅
  = (inl (KeyError (PStr "a")), ∅).
Proof. vm_compute. reflexivity. Qed.

(** The keywords after the failing one are not restored: ["b"] keeps the
    value of the keyword instead of its pre-scope [9]. *)
Example exit_raises_and_leaves_later_keywords :
  with_scope [] [("a", PInt 3); ("b", PInt 5)] (l_delitem "a") {["b" := PInt 9]}
  = (inl (KeyError (PStr "a")), {["b" := PInt 5]}).
Proof. vm_compute. reflexivity. Qed.

(** ** A block that raises *)

(** A block that raises [e]: [__exit__] is run with the exception and
    does exactly what it does after a normal end of the block on the same
    locals; the locals after the [with] statement are those of that
    restore; what [__exit__] returns is never true, so the statement ends
    with [e] raised when the restore completes, and with the exception of
    the restore when that one raises. *)
Theorem exit_restores_and_lets_the_error_through
    (mgr mgr' : ScopeContextManager) (body : M unit) (l0 le l1 : dict) (e : exn)
    (exc_type exc_msg exc_tb : pyval) :
  __enter__ mgr l0 = (inr mgr', le) →
  body le = (inl e, l1) →
  let restore := __exit__ mgr' PNone PNone PNone l1 in
  __exit__ mgr' exc_type exc_msg exc_tb l1 = restore
  ∧ (with_stmt mgr body l0).2 = restore.2
  ∧ (with_stmt mgr body l0).2 = (with_stmt mgr (λ _, (inr tt, l1)) l0).2
  ∧ match restore.1 with
    | inr r => truthy r = false ∧ (with_stmt mgr body l0).1 = inl e
    | inl e' => (with_stmt mgr body l0).1 = inl e'
    end.
Proof.
  intros Hent Hbody restore. rewrite enter_eq in Hent.
  injection Hent as <- <-.
  rewrite !with_stmt_eq, Hbody. fold restore.
  split; [apply exit_ignores_exception|].
  destruct restore as [[e'|r] l3] eqn:Hr; simpl; [done|].
  apply exit_returns_None in Hr as ->. done.
Qed.

Lemma exit_restores_and_lets_the_error_through_witness :
  let mgr := {| initial_values := [("a", PInt 3)]; vars_to_preserve := PNone;
                old_locals := None |} in
  let body : M unit := _ ← l_setitem "b" (PInt 5); raise (UserError 0) in
  with_stmt mgr body locals_7_9
  = (inl (UserError 0), <["b" := PInt 5]> locals_7_9).
Proof.
  intros mgr body.
  pose proof (exit_restores_and_lets_the_error_through
                mgr (set_old_locals mgr locals_7_9) body locals_7_9
                (<["a" := PInt 3]> locals_7_9)
                (<["b" := PInt 5]> (<["a" := PInt 3]> locals_7_9))
                (UserError 0) PNone PNone PNone eq_refl eq_refl)
    as (_ & Hl & _ & Hr).
  destruct (with_stmt mgr body locals_7_9) as [r l].
  simpl in Hl. vm_compute in Hr. destruct Hr as [_ ->].
  rewrite Hl. vm_compute. reflexivity.
Defined.

(** C7 fails on the code where the restore raises: with no local bound,
    [with scope(a=3): del a; raise E].  The block ends with [E] raised
    and ["a"] unbound; [__exit__] runs [del l[name]] for ["a"], and its
    [KeyError] is what the statement ends with, in place of [E]. *)
Theorem block_error_replaced_by_exit_error :
  (_ ← l_delitem "a"; raise (UserError 7) : M unit) (<["a" := PInt 3]> ∅)
  = (inl (UserError 7), ∅)
  ∧ with_scope [] [("a", PInt 3)]
      (_ ← l_delitem "a"; raise (UserError 7)) ∅
    = (inl (KeyError (PStr "a")), ∅)
  ∧ (with_scope [] [("a", PInt 3)]
       (_ ← l_delitem "a"; raise (UserError 7)) ∅).1
    ≠ inl (UserError 7).
Proof.
  repeat split; try (vm_compute; reflexivity).
  vm_compute. discriminate.
Qed.

(** ** Two scopes in sequence *)

(** C8: two [with] statements one after the other act on the locals as
    the first scoped block applied to the initial mapping followed by the
    second applied to the mapping the first one leaves; each is told
    from its own keywords and preserve list and from the mappings at its
    own entry and at the end of its own block, whatever [old_locals] the
    managers held before. *)
Theorem sequential_scopes_compose
    (g1 g2 : ScopeContextManager) (b1 b2 : M unit) (l0 : dict) :
  (with_stmt g1 b1 ≫= λ _, with_stmt g2 b2) l0 =
    match scoped_block (initial_values g1) (vars_to_preserve g1) b1 l0 with
    | (inr _, l1) =>
        scoped_block (initial_values g2) (vars_to_preserve g2) b2 l1
    | (inl e, l1) => (inl e, l1)
    end.
Proof.
  assert (∀ g b l, with_stmt g b l
                   = scoped_block (initial_values g) (vars_to_preserve g) b l)
    as Hone by (intros; apply with_stmt_eq).
  unfold mbind, M_bind. rewrite Hone.
  destruct (scoped_block _ _ b1 l0) as [[e|[]] l1]; [done|apply Hone].
Qed.

(** ** Full reset as an empty preserve list *)

(** C9: [scope()] and [scope([])] build the same manager, so entry,
    exit and the whole [with] statement coincide on every locals mapping
    and every block; and whatever keywords come with the empty list, the
    locals after the statement are the same as with [scope()]. *)
Theorem full_reset_is_empty_preserve_list
    (kw : kwargs) (body : M unit) (l0 l1 : dict) :
  scope [] [] l0 = scope [PList []] [] l0
  ∧ entered [] [] l0 = entered [PList []] [] l0
  ∧ exit_after [] [] l0 l1 = exit_after [PList []] [] l0 l1
  ∧ with_scope [] [] body l0 = with_scope [PList []] [] body l0
  ∧ (exit_after [PList []] kw l0 l1).2 = (exit_after [] [] l0 l1).2
  ∧ (with_scope [PList []] kw body l0).2 = (with_scope [] [] body l0).2.
Proof.
  repeat split; try reflexivity.
  unfold with_scope, scope. monad_simpl.
  by rewrite !empty_preserve_list_restores.
Qed.

(** ** The preserve list as a set *)

Lemma hashable_same_elements (names1 names2 : list pyval) :
  (∀ x, x ∈ names1 ↔ x ∈ names2) →
  forallb hashable names1 = forallb hashable names2.
Proof.
  intros Hsame. apply eq_true_iff_eq.
  rewrite !forallb_forall. setoid_rewrite <- list_elem_of_In.
  split; intros H x Hx; apply H, Hsame, Hx.
Qed.

Lemma preserved_of_same_elements (l : dict) (names1 names2 : list pyval) :
  (∀ x, x ∈ names1 ↔ x ∈ names2) →
  preserved_of l names1 ∅ = preserved_of l names2 ∅.
Proof.
  intros Hsame. apply map_eq. intros k. rewrite !preserved_of_lookup.
  erewrite bool_decide_ext; [reflexivity|]. by rewrite Hsame.
Qed.

(** C10: two preserve lists with the same elements, in whatever order
    and however often repeated, make [__exit__] do the same: same
    outcome, same locals. *)
Theorem preserve_list_is_a_set
    (kw : kwargs) (old : option dict) (names1 names2 : list pyval)
    (exc_type exc_msg exc_tb : pyval) (l : dict) :
  (∀ x, x ∈ names1 ↔ x ∈ names2) →
  __exit__ {| initial_values := kw; vars_to_preserve := PList names1;
              old_locals := old |} exc_type exc_msg exc_tb l
  = __exit__ {| initial_values := kw; vars_to_preserve := PList names2;
                old_locals := old |} exc_type exc_msg exc_tb l.
Proof.
  intros Hsame. unfold __exit__. monad_simpl.
  rewrite !preserved_dict_eq.
  rewrite (hashable_same_elements names1 names2 Hsame).
  by rewrite (preserved_of_same_elements l names1 names2 Hsame).
Qed.

Lemma preserve_list_is_a_set_witness :
  let l1 : dict := <["c" := PInt 8]> (<["b" := PInt 5]> (<["a" := PInt 3]> ∅)) in
  __exit__ {| initial_values := []; old_locals := Some locals_7_9;
              vars_to_preserve := PList [PStr "c"; PStr "b"; PStr "c"] |}
           PNone PNone PNone l1
  = __exit__ {| initial_values := []; old_locals := Some locals_7_9;
                vars_to_preserve := PList [PStr "b"; PStr "c"] |}
             PNone PNone PNone l1.
Proof.
  intros l1. apply preserve_list_is_a_set.
  intros x. rewrite !elem_of_cons, !elem_of_nil. tauto.
Defined.

(** ** Further properties of the methods *)

Lemma updated_is_Some (kw : kwargs) (l : dict) (k : string) :
  k ∈ kw.*1 → is_Some (updated l kw !! k).
Proof.
  unfold updated. revert l.
  induction kw as [|[k' v'] kw IH]; intros l Hk; simpl in *.
  - by apply elem_of_nil in Hk.
  - destruct (decide (k ∈ kw.*1)) as [Hin|Hnin]; [by apply IH|].
    apply elem_of_cons in Hk as [->|?]; [|done].
    fold (updated (<[k' := v']> l) kw).
    rewrite updated_notin by done. rewrite lookup_insert_eq. by eexists.
Qed.

Lemma preserved_of_filter_str (l : dict) (names : list pyval) (acc : dict) :
  preserved_of l (List.filter is_str names) acc = preserved_of l names acc.
Proof.
  unfold preserved_of. revert acc.
  induction names as [|name names IH]; intros acc; [done|].
  destruct name; simpl; by rewrite IH.
Qed.

Lemma hashable_filter_str (names : list pyval) :
  forallb hashable (List.filter is_str names) = true.
Proof.
  induction names as [|name names IH]; [done|]. by destruct name.
Qed.

(** Lookup in what the first branch of [__exit__] leaves. *)
Lemma exit_list_lookup (names : list pyval) (old l : dict) (k : string) :
  (preserved_of l names ∅ ∪ old) !! k =
    if bool_decide (PStr k ∈ names ∧ is_Some (l !! k)) then l !! k
    else old !! k.
Proof.
  rewrite lookup_union, preserved_of_lookup, lookup_empty.
  case_bool_decide as H; [|by rewrite (left_id None _)].
  destruct H as [_ Hs]. destruct (l !! k) as [v|]; [|by destruct Hs].
  by destruct (old !! k).
Qed.

(** The result of the first branch of [__exit__] is a fixed point of it. *)
Lemma preserved_of_fixed (names : list pyval) (old l : dict) :
  preserved_of (preserved_of l names ∅ ∪ old) names ∅ ∪ old
  = preserved_of l names ∅ ∪ old.
Proof.
  apply map_eq. intros k. rewrite (exit_list_lookup names old _ k).
  case_bool_decide as H2; [done|].
  rewrite exit_list_lookup. case_bool_decide as H; [|done].
  destruct H2. split; [apply H|].
  rewrite exit_list_lookup, bool_decide_eq_true_2 by done. apply H.
Qed.

(** *** Entries of the preserve list that are not names *)

(** A list holding an unhashable entry is accepted by the constructor and
    by [__enter__], but [__exit__] then raises [TypeError] before it
    restores anything: the statement ends with that error, whatever the
    block did, and the locals stay as the block left them. *)
Theorem unhashable_entry_blocks_the_restore
    (names : list pyval) (kw : kwargs) (body : M unit) (l0 : dict) :
  forallb hashable names = false →
  with_scope [PList names] kw body l0
  = (inl (TypeError "unhashable type"), (body (updated l0 kw)).2).
Proof.
  intros Hh. unfold with_scope, scope. monad_simpl. rewrite with_stmt_eq.
  simpl. destruct (body _) as [[e|[]] l1];
    erewrite exit_list_eq by done; by rewrite Hh.
Qed.

Lemma unhashable_entry_blocks_the_restore_witness :
  with_scope [PList [PStr "c"; PList [PStr "b"]]] [("a", PInt 3)]
    (assign_sum "c" "a" "b") locals_7_9
  = (inl (TypeError "unhashable type"),
     <["c" := PInt 12]> (<["a" := PInt 3]> locals_7_9)).
Proof.
  rewrite (unhashable_entry_blocks_the_restore
             [PStr "c"; PList [PStr "b"]] [("a", PInt 3)]
             (assign_sum "c" "a" "b") locals_7_9 eq_refl).
  vm_compute. reflexivity.
Defined.

(** Hashable entries that are not strings never match a local name:
    [__exit__] behaves as if the list held its strings only. *)
Theorem non_string_entries_are_ignored
    (kw : kwargs) (old : option dict) (names : list pyval)
    (exc_type exc_msg exc_tb : pyval) (l : dict) :
  forallb hashable names = true →
  __exit__ {| initial_values := kw; vars_to_preserve := PList names;
              old_locals := old |} exc_type exc_msg exc_tb l
  = __exit__ {| initial_values := kw;
                vars_to_preserve := PList (List.filter is_str names);
                old_locals := old |} exc_type exc_msg exc_tb l.
Proof.
  intros Hh. unfold __exit__. monad_simpl.
  rewrite !preserved_dict_eq, Hh, hashable_filter_str.
  by rewrite preserved_of_filter_str.
Qed.

Lemma non_string_entries_are_ignored_witness :
  __exit__ {| initial_values := []; old_locals := Some locals_7_9;
              vars_to_preserve :=
                PList [PInt 1; PStr "c"; PTuple [PStr "a"]; PNone] |}
           PNone PNone PNone (<["c" := PInt 8]> (<["a" := PInt 3]> ∅))
  = (inr PNone, <["c" := PInt 8]> locals_7_9).
Proof.
  rewrite (non_string_entries_are_ignored [] (Some locals_7_9)
             [PInt 1; PStr "c"; PTuple [PStr "a"]; PNone]
             PNone PNone PNone _ eq_refl).
  vm_compute. reflexivity.
Defined.

(** *** [__exit__] without [__enter__] *)

(** On a manager fresh from the constructor, [__exit__] raises
    [AttributeError] for the missing [old_locals]; with a preserve list
    this happens after [l.clear()], so the caller's locals are all gone,
    while a keyword-only manager leaves them untouched. *)
Theorem exit_without_enter
    (args : list pyval) (kw : kwargs) (mgr : ScopeContextManager)
    (exc_type exc_msg exc_tb : pyval) (l l' : dict) :
  __init__ args kw l' = (inr mgr, l') →
  __exit__ mgr exc_type exc_msg exc_tb l =
    match vars_to_preserve mgr with
    | PList names =>
        if forallb hashable names
        then (inl (AttributeError "old_locals"), ∅)
        else (inl (TypeError "unhashable type"), l)
    | _ => (inl (AttributeError "old_locals"), l)
    end.
Proof.
  intros Hinit.
  assert (old_locals mgr = None ∧
          (isinstance_list (vars_to_preserve mgr) = false →
           vars_to_preserve mgr = PNone ∧ initial_values mgr ≠ []))
    as [Hold Hkw].
  { destruct args as [|arg0 [|arg1 args]].
    - destruct kw; injection Hinit as <-; simpl; split; done.
    - destruct arg0; try done. injection Hinit as <-. done.
    - by destruct arg0. }
  unfold __exit__, get_old_locals.
  destruct (vars_to_preserve mgr) as [| | | |names| |] eqn:Hv;
    try (by destruct (Hkw eq_refl)).
  - destruct (initial_values mgr) as [|[k v] kw'] eqn:Hi;
      [by destruct (Hkw eq_refl)|].
    simpl. unfold get_old_locals. rewrite Hold. done.
  - monad_simpl. rewrite preserved_dict_eq, Hold.
    by destruct (forallb hashable names).
Qed.

Lemma exit_without_enter_witness :
  ∃ mgr, scope [PList [PStr "c"]] [] locals_7_9 = (inr mgr, locals_7_9)
         ∧ __exit__ mgr PNone PNone PNone locals_7_9
           = (inl (AttributeError "old_locals"), ∅).
Proof.
  eexists. split; [reflexivity|].
  rewrite (exit_without_enter [PList [PStr "c"]] [] _ PNone PNone PNone
             locals_7_9 locals_7_9 eq_refl).
  reflexivity.
Defined.

(** *** The keyword loop of [__exit__] *)

Lemma restore_keywords_app self old (pre post : list string) (l : dict) :
  old_locals self = Some old →
  NoDup pre →
  (∀ k, k ∈ pre → old !! k = None → is_Some (l !! k)) →
  restore_keywords self (pre ++ post)%list l
  = restore_keywords self post (restored old l pre).
Proof.
  intros Hold. revert l.
  induction pre as [|name pre IH]; intros l Hnd Hpre; [done|].
  apply NoDup_cons in Hnd as [Hname Hnd].
  simpl. unfold get_old_locals. rewrite Hold. monad_simpl.
  destruct (old !! name) as [v|] eqn:Ho.
  - unfold l_setitem. apply IH; [done|].
    intros k Hk HNone. rewrite lookup_insert_ne by set_solver.
    apply Hpre; [by apply elem_of_cons; right|done].
  - unfold l_delitem.
    destruct (Hpre name) as [w Hw]; [by apply elem_of_cons; left|done|].
    rewrite Hw. apply IH; [done|].
    intros k Hk HNone. rewrite lookup_delete_ne by set_solver.
    apply Hpre; [by apply elem_of_cons; right|done].
Qed.

(** In keyword-only mode [__exit__] completes exactly when every keyword
    that had no binding at entry is bound in the locals it is run on. *)
Theorem keyword_exit_completes_iff
    (kw : kwargs) (vars : pyval) (old l : dict)
    (exc_type exc_msg exc_tb : pyval) :
  isinstance_list vars = false →
  NoDup kw.*1 →
  (∃ l2, __exit__ {| initial_values := kw; vars_to_preserve := vars;
                     old_locals := Some old |} exc_type exc_msg exc_tb l
         = (inr PNone, l2))
  ↔ (∀ k, k ∈ kw.*1 → old !! k = None → is_Some (l !! k)).
Proof.
  intros Hv Hnd. split.
  - intros [l2 Hx] k Hk Ho.
    destruct (l !! k) as [w|] eqn:Hl; [by eexists|].
    destruct (exit_keywords_fails
                {| initial_values := kw; vars_to_preserve := vars;
                   old_locals := Some old |} old exc_type exc_msg exc_tb l)
      as (k' & l' & Hf); [done|done|by exists k|].
    rewrite Hf in Hx. discriminate.
  - intros Hpre. eexists. rewrite exit_keywords_eq by done. simpl.
    by erewrite restore_keywords_ok.
Qed.

Lemma keyword_exit_completes_iff_witness :
  (∃ l2, __exit__ {| initial_values := [("a", PInt 3); ("c", PInt 1)];
                     vars_to_preserve := PNone;
                     old_locals := Some locals_7_9 |} PNone PNone PNone
                  (<["c" := PInt 8]> locals_7_9)
         = (inr PNone, l2))
  ↔ (∀ k, k ∈ ["a"; "c"] → locals_7_9 !! k = None →
          is_Some ((<["c" := PInt 8]> locals_7_9) !! k)).
Proof.
  apply (keyword_exit_completes_iff [("a", PInt 3); ("c", PInt 1)] PNone
           locals_7_9 (<["c" := PInt 8]> locals_7_9) PNone PNone PNone).
  - reflexivity.
  - apply (bool_decide_unpack _). vm_compute. reflexivity.
Defined.

(** When it fails, it fails at the first keyword bound neither at entry
    nor now, with the [KeyError] of that name: the keywords before it are
    back in their state at entry, and every other name, the later
    keywords included, is left as it was found. *)
Theorem keyword_exit_stops_at_the_first_missing_name
    (kw_pre kw_post : kwargs) (k : string) (v vars : pyval) (old l : dict)
    (exc_type exc_msg exc_tb : pyval) :
  isinstance_list vars = false →
  NoDup ((kw_pre ++ (k, v) :: kw_post)%list.*1) →
  (∀ k', k' ∈ kw_pre.*1 → old !! k' = None → is_Some (l !! k')) →
  old !! k = None → l !! k = None →
  ∃ l',
    __exit__ {| initial_values := (kw_pre ++ (k, v) :: kw_post)%list;
                vars_to_preserve := vars; old_locals := Some old |}
             exc_type exc_msg exc_tb l
    = (inl (KeyError (PStr k)), l')
    ∧ (∀ k', k' ∈ kw_pre.*1 → l' !! k' = old !! k')
    ∧ (∀ k', k' ∉ kw_pre.*1 → l' !! k' = l !! k').
Proof.
  intros Hv Hnd Hpre Ho Hl.
  rewrite fmap_app, fmap_cons in Hnd. simpl in Hnd.
  apply NoDup_app in Hnd as (Hnd_pre & Hdisj & _).
  assert (k ∉ kw_pre.*1) as Hk.
  { intros Hin. apply (Hdisj k Hin). by apply elem_of_cons; left. }
  exists (restored old l kw_pre.*1). split; [|split].
  - rewrite exit_keywords_eq by done. simpl.
    rewrite fmap_app, fmap_cons. simpl.
    erewrite restore_keywords_app by done.
    simpl. monad_simpl. rewrite Ho. unfold l_delitem.
    by rewrite restored_notin, Hl.
  - intros k' Hk'. by apply restored_in.
  - intros k' Hk'. by apply restored_notin.
Qed.

Lemma keyword_exit_stops_at_the_first_missing_name_witness :
  ∃ l',
    __exit__ {| initial_values := [("a", PInt 3); ("c", PInt 1); ("b", PInt 5)];
                vars_to_preserve := PNone; old_locals := Some locals_7_9 |}
             PNone PNone PNone (<["a" := PInt 3]> (<["b" := PInt 5]> ∅))
    = (inl (KeyError (PStr "c")), l')
    ∧ l' !! "a" = Some (PInt 7)
    ∧ l' !! "b" = Some (PInt 5).
Proof.
  destruct (keyword_exit_stops_at_the_first_missing_name
              [("a", PInt 3)] [("b", PInt 5)] "c" (PInt 1) PNone locals_7_9
              (<["a" := PInt 3]> (<["b" := PInt 5]> ∅)) PNone PNone PNone)
    as (l' & Hx & Hpre & Hrest).
  - reflexivity.
  - apply (bool_decide_unpack _). vm_compute. reflexivity.
  - intros k' Hk'. apply list_elem_of_singleton in Hk' as ->.
    vm_compute. discriminate.
  - reflexivity.
  - reflexivity.
  - exists l'. split; [exact Hx|]. split.
    + rewrite Hpre by (by apply list_elem_of_singleton). reflexivity.
    + rewrite Hrest; [reflexivity|].
      intros Hin. by apply list_elem_of_singleton in Hin.
Defined.

(** When it completes, the order in which the keywords were given does
    not matter. *)
Theorem keyword_exit_order_irrelevant
    (kw1 kw2 : kwargs) (vars : pyval) (old l : dict)
    (exc_type exc_msg exc_tb : pyval) :
  isinstance_list vars = false →
  kw1 ≡ₚ kw2 →
  NoDup kw1.*1 →
  (∀ k, k ∈ kw1.*1 → old !! k = None → is_Some (l !! k)) →
  ∃ l2,
    __exit__ {| initial_values := kw1; vars_to_preserve := vars;
                old_locals := Some old |} exc_type exc_msg exc_tb l
    = (inr PNone, l2)
    ∧ __exit__ {| initial_values := kw2; vars_to_preserve := vars;
                  old_locals := Some old |} exc_type exc_msg exc_tb l
      = (inr PNone, l2).
Proof.
  intros Hv Hperm Hnd Hpre.
  assert (kw1.*1 ≡ₚ kw2.*1) as Hkeys by (by apply fmap_Permutation).
  assert (NoDup kw2.*1) as Hnd2 by (by rewrite <- Hkeys).
  exists (restored old l kw1.*1). split.
  - rewrite exit_keywords_eq by done. simpl.
    by erewrite restore_keywords_ok.
  - rewrite exit_keywords_eq by done. simpl.
    erewrite restore_keywords_ok; [|done|done|].
    2:{ intros k Hk. apply Hpre. by rewrite Hkeys. }
    f_equal. apply map_eq. intros k.
    destruct (decide (k ∈ kw1.*1)) as [Hin|Hnin].
    + rewrite !restored_in; try done. by rewrite <- Hkeys.
    + rewrite !restored_notin; try done. by rewrite <- Hkeys.
Qed.

Lemma keyword_exit_order_irrelevant_witness :
  ∃ l2,
    __exit__ {| initial_values := [("a", PInt 3); ("c", PInt 1)];
                vars_to_preserve := PNone; old_locals := Some locals_7_9 |}
             PNone PNone PNone (<["c" := PInt 8]> locals_7_9)
    = (inr PNone, l2)
    ∧ __exit__ {| initial_values := [("c", PInt 1); ("a", PInt 3)];
                  vars_to_preserve := PNone; old_locals := Some locals_7_9 |}
               PNone PNone PNone (<["c" := PInt 8]> locals_7_9)
      = (inr PNone, l2).
Proof.
  apply keyword_exit_order_irrelevant.
  - reflexivity.
  - apply Permutation_swap.
  - apply (bool_decide_unpack _). vm_compute. reflexivity.
  - intros k Hk Ho.
    apply elem_of_cons in Hk as [->|Hk]; [vm_compute in Ho; discriminate|].
    apply list_elem_of_singleton in Hk as ->. vm_compute. eauto.
Defined.

(** *** Whole statements *)


(** [with scope(k=v, ...): pass] changes nothing: every keyword is put back
    as it was, bound or unbound. *)
Theorem keyword_scope_around_pass_is_identity (kw : kwargs) (l0 : dict) :
  kw ≠ [] →
  NoDup kw.*1 →
  with_scope [] kw pass l0 = (inr tt, l0).
Proof.
  intros Hkw Hnd. unfold with_scope, scope, mbind, M_bind.
  rewrite init_keywords_only by done. rewrite with_stmt_eq. simpl.
  rewrite exit_keywords_eq by done. simpl.
  erewrite restore_keywords_ok; [|done|done|].
  2:{ intros k Hk _. by apply updated_is_Some. }
  f_equal. apply map_eq. intros k.
  destruct (decide (k ∈ kw.*1)) as [Hin|Hnin].
  - by rewrite restored_in.
  - by rewrite restored_notin, updated_notin.
Qed.

Lemma keyword_scope_around_pass_is_identity_witness :
  with_scope [] [("a", PInt 3); ("c", PInt 1)] pass locals_7_9
  = (inr tt, locals_7_9).
Proof.
  apply keyword_scope_around_pass_is_identity.
  - discriminate.
  - apply (bool_decide_unpack _). vm_compute. reflexivity.
Defined.

(** [with scope(names, k=v, ...): pass] is an assignment of the keywords
    that are listed: a listed name ends with what entry made of it, every
    other name with its pre-scope state. *)
Theorem preserve_list_around_pass_assigns_listed_keywords
    (names : list string) (kw : kwargs) (l0 : dict) :
  ∃ l2,
    with_scope [PList (PStr <$> names)] kw pass l0 = (inr tt, l2)
    ∧ ∀ k, l2 !! k = if bool_decide (k ∈ names) then updated l0 kw !! k
                     else l0 !! k.
Proof.
  eexists. split.
  - unfold with_scope, scope. monad_simpl. rewrite with_stmt_eq. simpl.
    erewrite exit_list_eq by done. by rewrite hashable_names.
  - intros k. rewrite exit_list_lookup.
    assert (PStr k ∈ PStr <$> names ↔ k ∈ names) as Hin.
    { rewrite list_elem_of_fmap. split; [|by eauto].
      by intros (k' & [= ->] & ?). }
    destruct (decide (k ∈ names)) as [Hk|Hk].
    + rewrite (bool_decide_eq_true_2 (k ∈ names)) by done.
      destruct (updated l0 kw !! k) as [w|] eqn:Hu.
      * rewrite bool_decide_eq_true_2; [done|]. split; [by apply Hin|eauto].
      * rewrite bool_decide_eq_false_2 by (by intros [_ [? ?]]).
        destruct (decide (k ∈ kw.*1)) as [Hkw|Hkw].
        -- apply (updated_is_Some kw l0) in Hkw as [? ?]. congruence.
        -- by rewrite <- Hu, updated_notin.
    + rewrite !bool_decide_eq_false_2; [done|done|]. intros [? _]. by apply Hk, Hin.
Qed.

(** With a list of names the statement ends the way its block ends:
    [__exit__] neither fails nor holds back an error of the block. *)
Theorem preserve_list_scope_keeps_the_outcome
    (names : list string) (kw : kwargs) (body : M unit) (l0 : dict) :
  (with_scope [PList (PStr <$> names)] kw body l0).1
  = (body (updated l0 kw)).1.
Proof.
  unfold with_scope, scope. monad_simpl. rewrite with_stmt_eq. simpl.
  destruct (body _) as [[e|[]] l1];
    erewrite exit_list_eq by done; by rewrite hashable_names.
Qed.

(** In keyword-only mode, when a keyword that had no binding at entry is
    unbound as the block ends, the statement ends with the [KeyError] of
    [__exit__], also when the block itself had raised: that error of the
    block is lost. *)
Theorem keyword_exit_error_replaces_the_block_error
    (kw : kwargs) (body : M unit) (l0 l1 : dict) (r : exn + unit) :
  kw ≠ [] →
  body (updated l0 kw) = (r, l1) →
  (∃ k, k ∈ kw.*1 ∧ l0 !! k = None ∧ l1 !! k = None) →
  ∃ k l2, with_scope [] kw body l0 = (inl (KeyError (PStr k)), l2).
Proof.
  intros Hkw Hbody Hk. unfold with_scope, scope, mbind, M_bind.
  rewrite init_keywords_only by done. rewrite with_stmt_eq. simpl.
  rewrite Hbody.
  destruct (exit_keywords_fails
              (set_old_locals {| initial_values := kw; vars_to_preserve := PNone;
                                 old_locals := None |} l0)
              l0 PNone PNone PNone l1) as (k & l2 & ->); [done|done|done|].
  exists k, l2. by destruct r as [e|[]].
Qed.

Lemma keyword_exit_error_replaces_the_block_error_witness :
  ∃ k l2,
    with_scope [] [("a", PInt 3)]
      (_ ← l_delitem "a"; raise (UserError 7)) ∅
    = (inl (KeyError (PStr k)), l2).
Proof.
  apply (keyword_exit_error_replaces_the_block_error
           [("a", PInt 3)] (_ ← l_delitem "a"; raise (UserError 7))
           ∅ ∅ (inl (UserError 7))).
  - discriminate.
  - vm_compute. reflexivity.
  - exists "a". split; [by apply list_elem_of_singleton|].
    split; reflexivity.
Defined.

(** Running the first branch of [__exit__] again on what it left gives
    the same outcome and leaves the same locals. *)
Theorem preserve_list_exit_is_idempotent
    (kw : kwargs) (old : option dict) (names : list pyval)
    (exc_type exc_msg exc_tb : pyval) (l : dict) :
  let mgr := {| initial_values := kw; vars_to_preserve := PList names;
                old_locals := old |} in
  let once := __exit__ mgr exc_type exc_msg exc_tb l in
  __exit__ mgr exc_type exc_msg exc_tb once.2 = once.
Proof.
  intros mgr once. subst once mgr. unfold __exit__. monad_simpl.
  rewrite !preserved_dict_eq.
  destruct (forallb hashable names) eqn:Hh; simpl.
  - unfold get_old_locals. destruct old as [old|]; simpl.
    + rewrite ?preserved_dict_eq, ?Hh. simpl. unfold l_update.
      rewrite !(right_id_L ∅ (∪)). by rewrite preserved_of_fixed.
    + by rewrite ?preserved_dict_eq, ?Hh.
  - by rewrite ?preserved_dict_eq, ?Hh.
Qed.

(** *** One manager entered twice *)




